(** * A shallow embedding of go-influxlogger (logger.go)

    The Go package adapts a leveled-logging interface to an InfluxDB sink.
    This file models the encoder ([getFields]), the ring-buffered flush
    controller ([LogWriter.Write], [writeBuffered], [flushBuffer]), the
    constructor [NewLogWriter], and the [Logger] facade. *)

From stdpp Require Import base gmap list strings pretty.
From Stdlib Require Import ZArith Lia.

Open Scope string_scope.

(** ** Levels and the static severity tables *)

(** [logging.Level]: the seven levels of the consumed logging interface. *)
Inductive Level :=
| TraceLevel | DebugLevel | InfoLevel | WarnLevel
| ErrorLevel | FatalLevel | PanicLevel.

Global Instance Level_eq_dec : EqDecision Level.
Proof. solve_decision. Defined.

Definition level_to_nat (l : Level) : nat :=
  match l with
  | TraceLevel => 0 | DebugLevel => 1 | InfoLevel => 2 | WarnLevel => 3
  | ErrorLevel => 4 | FatalLevel => 5 | PanicLevel => 6
  end.

Definition nat_to_level (n : nat) : option Level :=
  match n with
  | 0 => Some TraceLevel | 1 => Some DebugLevel | 2 => Some InfoLevel
  | 3 => Some WarnLevel | 4 => Some ErrorLevel | 5 => Some FatalLevel
  | 6 => Some PanicLevel | _ => None
  end.

Global Instance Level_countable : Countable Level.
Proof.
  apply (inj_countable' level_to_nat (fun n => default TraceLevel (nat_to_level n))).
  intros []; reflexivity.
Defined.

(** [var severityMap = map[logging.Level]string{...}] *)
Definition severityMap : gmap Level string :=
  list_to_map
    [(TraceLevel, "debug"); (DebugLevel, "debug"); (InfoLevel, "info");
     (WarnLevel, "warn"); (ErrorLevel, "err"); (FatalLevel, "alert");
     (PanicLevel, "emerg")].

(** [var severityCode = map[logging.Level]int{...}] *)
Definition severityCode : gmap Level Z :=
  list_to_map
    [(TraceLevel, 7%Z); (DebugLevel, 7%Z); (InfoLevel, 6%Z);
     (WarnLevel, 4%Z); (ErrorLevel, 3%Z); (FatalLevel, 1%Z);
     (PanicLevel, 0%Z)].

(** Go map reads return the zero value on a missing key:
    [severityMap[level]] and [severityCode[level]]. *)
Definition severity_keyword (l : Level) : string := default "" (severityMap !! l).
Definition severity_code (l : Level) : Z := default 0%Z (severityCode !! l).

(** ** Values, fields and points *)

(** The scalar values that flow through [any] and [logging.Fields]. *)
Inductive Value :=
| VInt (z : Z)
| VString (s : string)
| VBool (b : bool).

(** A Go map value may be [nil]; [None] is the nil map. *)
Abbreviation Fields := (option (gmap string Value)).

(** Time is Unix time; its RFC3339 rendering is a parameter below. *)
Abbreviation Time := Z.

(** [*influxdb3.Point] as built by [influxdb3.NewPoint]. *)
Record Point := mkPoint {
  p_measurement : string;
  p_tags : gmap string string;
  p_fields : gmap string Value;
  p_time : Time
}.

(** A batch handed to [client.WritePoints]: a Go slice of pointers,
    where [None] is a nil pointer. *)
Abbreviation Batch := (list (option Point)).

(** Errors surfaced by the modelled code. *)
Inductive Err :=
| ErrBufferFull
| ErrBufferEmpty
| ErrInvalidFlushInterval
| ErrInvalidSize
| ErrConnection (msg : string)
| ErrSink (msg : string).

(** The results of a Go call that may also panic. *)
Inductive GoResult (A : Type) :=
| GoOk (a : A)
| GoErr (e : Err)
| GoPanic (msg : string).
Arguments GoOk {A} a.
Arguments GoErr {A} e.
Arguments GoPanic {A} msg.

(** [fmt.Sprint]: operands are rendered with their default format and a
    space is added between operands when neither is a string. *)
Definition value_string (v : Value) : string :=
  match v with
  | VInt z => pretty z
  | VString s => s
  | VBool b => if b then "true" else "false"
  end.

Definition is_string (v : Value) : bool :=
  match v with VString _ => true | _ => false end.

Fixpoint sprint_from (prev_is_string : option bool) (args : list Value) : string :=
  match args with
  | [] => ""
  | a :: rest =>
      let sep := match prev_is_string with
                 | Some false => if is_string a then "" else " "
                 | _ => ""
                 end in
      sep +:+ value_string a +:+ sprint_from (Some (is_string a)) rest
  end.

Definition Sprint (args : list Value) : string := sprint_from None args.

(** ** The ring queue ([github.com/hadi77ir/go-ringqueue])

    The library is not part of this repository; its contract is the one of
    the spec (section 4.2) with the [WhenFullError]/[WhenEmptyError] policies
    that [NewLogWriter] selects: FIFO, [Push] fails when full, [Pop] fails
    when empty. *)
Record RingQueue := mkRQ {
  rq_items : list Point;   (** oldest first *)
  rq_cap : nat
}.

Definition rq_Len (q : RingQueue) : nat := length (rq_items q).
Definition rq_Cap (q : RingQueue) : nat := rq_cap q.

Definition rq_Push (q : RingQueue) (p : Point) : RingQueue * option Err :=
  if (rq_Len q <? rq_Cap q)%nat
  then (mkRQ (rq_items q ++ [p]) (rq_cap q), None)
  else (q, Some ErrBufferFull).

Definition rq_Pop (q : RingQueue) : RingQueue * option Point * option Err :=
  match rq_items q with
  | [] => (q, None, Some ErrBufferEmpty)
  | p :: rest => (mkRQ rest (rq_cap q), Some p, None)
  end.

(** [ringqueue.NewUnsafe(size, WhenFullError, WhenEmptyError, nil)]. *)
Definition rq_NewUnsafe (size : Z) : GoResult RingQueue :=
  if (0 <? size)%Z then GoOk (mkRQ [] (Z.to_nat size)) else GoErr ErrInvalidSize.

(** ** The LogWriter *)

(** The [client] field is the parsed connection; the sink call itself is a
    parameter of the section below. [tags] is a Go map that may be nil. *)
Record LogWriter := mkLogWriter {
  client : string;
  measurement : string;
  appName : string;
  host : string;
  tags : option (gmap Level (gmap string string));
  lw_fields : gmap string Value;
  flushInterval : Z;
  buffer : option RingQueue   (** a nil [ringqueue.RingQueue] interface is [None] *)
}.

Definition set_buffer (w : LogWriter) (b : option RingQueue) : LogWriter :=
  mkLogWriter (client w) (measurement w) (appName w) (host w) (tags w)
    (lw_fields w) (flushInterval w) b.

(** The default field set assigned by [NewLogWriter]. *)
Definition init_fields (procId : string) : gmap string Value :=
  list_to_map
    [("facility_code", VInt 1); ("message", VString "");
     ("procid", VString procId); ("severity_code", VInt 7);
     ("timestamp", VInt 0); ("version", VInt 1)].

(** The tag set built per level by the loop of [NewLogWriter]. *)
Definition level_tags (appName host keyword : string) : gmap string string :=
  list_to_map
    [("appname", appName); ("host", host); ("hostname", host);
     ("facility", "user"); ("severity", keyword)].

(** [m[k] = v] on a Go map: assignment to a nil map panics. *)
Definition go_map_assign {K V} `{Countable K} (m : option (gmap K V)) (k : K) (v : V)
  : GoResult (option (gmap K V)) :=
  match m with
  | None => GoPanic "assignment to entry in nil map"
  | Some m' => GoOk (Some (<[k := v]> m'))
  end.

(** [for level, keyword := range severityMap { writer.tags[level] = ... }] *)
Fixpoint init_tags_loop (appName host : string)
    (entries : list (Level * string)) (t : option (gmap Level (gmap string string)))
  : GoResult (option (gmap Level (gmap string string))) :=
  match entries with
  | [] => GoOk t
  | (level, keyword) :: rest =>
      match go_map_assign t level (level_tags appName host keyword) with
      | GoOk t' => init_tags_loop appName host rest t'
      | GoErr e => GoErr e
      | GoPanic m => GoPanic m
      end
  end.

(** [for key, value := range src { dst[f(key)] = value }] on a non-nil [dst]. *)
Definition range_assign (f : string -> string) (src dst : gmap string Value)
  : gmap string Value :=
  map_fold (fun key value m => <[f key := value]> m) dst src.

(** The mutable part of the program: the LogWriter behind the shared
    pointer, and the batches the sink has been handed, oldest first. *)
Record World := mkWorld {
  wr : LogWriter;
  sent : list Batch
}.

(** A state monad over [World]. *)
Definition M (A : Type) : Type := World -> A * World.

Definition retM {A} (a : A) : M A := fun s => (a, s).
Definition bindM {A B} (m : M A) (k : A -> M B) : M B :=
  fun s => let '(a, s') := m s in k a s'.

Notation "x <-- m ;; k" := (bindM m (fun x => k))
  (at level 100, m at next level, right associativity).

Definition set_buf (q : RingQueue) : M unit :=
  fun s => (tt, mkWorld (set_buffer (wr s) (Some q)) (sent s)).

(** The [for i := 0; i < w.buffer.Len(); i++] loop of [flushBuffer].
    [fuel] bounds the iterations: it is the initial length, and the loop
    index grows while the length can only shrink. *)
Fixpoint flush_loop (fuel i : nat) (q : RingQueue) (points : Batch)
  : RingQueue * Batch :=
  match fuel with
  | 0 => (q, points)
  | S fuel' =>
      if (i <? rq_Len q)%nat then
        match rq_Pop q with
        | (q', _, Some _) => (q', points)                 (* break *)
        | (q', point, None) => flush_loop fuel' (S i) q' (<[i := point]> points)
        end
      else (q, points)
  end.

(** [points := make([]*influxdb3.Point, w.buffer.Len())] followed by the
    loop: the queue left behind and the slice handed to the sink. *)
Definition drain (q : RingQueue) : RingQueue * Batch :=
  flush_loop (rq_Len q) 0 q (replicate (rq_Len q) None).

Section Writer.

(** [timestamp.UTC().Format(time.RFC3339)] *)
Variable Format_RFC3339_UTC : Time -> string.
(** [w.client.WritePoints(ctx, points)]: the sink's answer to a batch. *)
Variable WritePoints : Batch -> option Err.
(** [influxdb3.NewFromConnectionString]: a client or an error. *)
Variable NewFromConnectionString : string -> string + Err.

(** [func NewLogWriter(...)]: a writer, an error, or a panic. *)
Definition NewLogWriter (connection appName' host' procId : string)
    (flushInterval' : Z) (bufferLimit : Z) : GoResult LogWriter :=
  match NewFromConnectionString connection with
  | inr e => GoErr e
  | inl c =>
      if (flushInterval' <? 0)%Z then GoErr ErrInvalidFlushInterval else
      let writer := mkLogWriter c "" "" "" None ∅ flushInterval' None in
      let writer :=
        if (0 <? bufferLimit)%Z then
          match rq_NewUnsafe bufferLimit with
          | GoOk q => GoOk (set_buffer writer (Some q))
          | GoErr e => GoErr e
          | GoPanic m => GoPanic m
          end
        else GoOk writer in
      match writer with
      | GoErr e => GoErr e
      | GoPanic m => GoPanic m
      | GoOk writer =>
          match init_tags_loop appName' host' (map_to_list severityMap) (tags writer) with
          | GoErr e => GoErr e
          | GoPanic m => GoPanic m
          | GoOk t =>
              GoOk (mkLogWriter (client writer) (measurement writer)
                      (appName writer) (host writer) t (init_fields procId)
                      (flushInterval writer) (buffer writer))
          end
      end
  end.

(** [func (w *LogWriter) getFields(...) map[string]any] *)
Definition getFields (w : LogWriter) (level : Level) (args : list Value)
    (fields : Fields) (timestamp : Time) : gmap string Value :=
  let msg := Sprint args in
  let m := match fields with
           | Some f => range_assign (String.append "fields.") f ∅
           | None => ∅
           end in
  let m := range_assign (fun k => k) (lw_fields w) m in
  let m := <["severity_code" := VInt (severity_code level)]> m in
  let m := <["timestamp" := VString (Format_RFC3339_UTC timestamp)]> m in
  <["message" := VString msg]> m.

(** [w.tags[level]]: a read of a nil map, or of a missing key, is nil. *)
Definition tags_of (w : LogWriter) (level : Level) : gmap string string :=
  match tags w with
  | Some t => default ∅ (t !! level)
  | None => ∅
  end.

(** The point built at the start of [Write]. *)
Definition encode (w : LogWriter) (level : Level) (args : list Value)
    (fields : Fields) (timestamp : Time) : Point :=
  mkPoint (measurement w) (tags_of w level)
    (getFields w level args fields timestamp) timestamp.

(** [func (w *LogWriter) writePoints(ctx, points) error] *)
Definition writePoints (points : Batch) : M (option Err) :=
  fun s => (WritePoints points, mkWorld (wr s) (sent s ++ [points])).

(** [func (w *LogWriter) flushBuffer(ctx) error] on the queue [q]. *)
Definition flushBuffer (q : RingQueue) : M (RingQueue * option Err) :=
  let '(q', points) := drain q in
  _ <-- set_buf q' ;;
  err <-- writePoints points ;;
  retM (q', err).

(** [_, err := w.buffer.Push(point); return err] *)
Definition pushPoint (q : RingQueue) (point : Point) : M (option Err) :=
  let '(q', err) := rq_Push q point in
  _ <-- set_buf q' ;;
  retM err.

(** [func (w *LogWriter) writeBuffered(ctx, point) error], the body between
    [Lock] and the deferred [Unlock], on the writer's queue [q]. *)
Definition writeBuffered (q : RingQueue) (point : Point) : M (option Err) :=
  if (rq_Len q =? rq_Cap q)%nat then
    r <-- flushBuffer q ;;
    let '(q', err) := r in
    match err with
    | Some e => retM (Some e)
    | None => pushPoint q' point
    end
  else pushPoint q point.

(** [func (w *LogWriter) Write(level, args, fields) error]; [now] is the
    value of [time.Now()]. *)
Definition Write (level : Level) (args : list Value) (fields : Fields)
    (now : Time) : M (option Err) :=
  fun s =>
    let w := wr s in
    let point := encode w level args fields now in
    match buffer w with
    | Some q =>
        if (flushInterval w =? 0)%Z then writePoints [Some point] s
        else writeBuffered q point s
    | None => writePoints [Some point] s
    end.

(** Sequential [Write] calls, each given as (level, args, fields, now). *)
Fixpoint run_writes (calls : list (Level * list Value * Fields * Time))
  : M (list (option Err)) :=
  match calls with
  | [] => retM []
  | (level, args, fields, now) :: rest =>
      r <-- Write level args fields now ;;
      rs <-- run_writes rest ;;
      retM (r :: rs)
  end.

(** ** The Logger facade *)

(** [type Logger struct { writer *LogWriter; fields logging.Fields }]; the
    writer pointer is an address into the heap holding the [World]. *)
Record Logger := mkLogger {
  l_writer : nat;
  l_fields : Fields
}.

(** [func NewBufferedLogger(...)]; [addr] is where the new
    writer is allocated. *)
Definition NewBufferedLogger (addr : nat) (connection appName' host' procId : string)
    (flushInterval' : Z) (bufferLimit : Z) : GoResult (LogWriter * Logger) :=
  match NewLogWriter connection appName' host' procId flushInterval' bufferLimit with
  | GoOk w => GoOk (w, mkLogger addr None)
  | GoErr e => GoErr e
  | GoPanic m => GoPanic m
  end.

(** What a call of [Log] does to the control flow of its caller. *)
Inductive Outcome :=
| Returned
| Exited (code : Z)
| Panicked (msg : string).

(** [func (l *Logger) Log(level, args...)] on the world of [l.writer]. *)
Definition Log (l : Logger) (level : Level) (args : list Value) (now : Time)
  : M Outcome :=
  _ <-- Write level args (l_fields l) now ;;
  if decide (level = FatalLevel) then retM (Exited 1)
  else if decide (level = PanicLevel) then retM (Panicked (Sprint args))
  else retM Returned.

(** [func NewLogger(connection, appName, host, procId)]: unbuffered. *)
Definition NewLogger (addr : nat) (connection appName' host' procId : string)
  : GoResult (LogWriter * Logger) :=
  NewBufferedLogger addr connection appName' host' procId 0 0.

End Writer.

(** [func (l *Logger) WithFields(fields)] *)
Definition WithFields (l : Logger) (fields : Fields) : Logger :=
  mkLogger (l_writer l) fields.

(** [maps.Clone]: the clone of a nil map is nil. *)
Definition maps_Clone (m : Fields) : Fields := m.

(** [maps.Copy(dst, src)]: [for k, v := range src { dst[k] = v }]. *)
Definition maps_Copy (dst src : Fields) : GoResult Fields :=
  match src with
  | None => GoOk dst
  | Some s =>
      match dst with
      | Some d => GoOk (Some (range_assign (fun k => k) s d))
      | None =>
          match map_to_list s with
          | [] => GoOk None
          | _ :: _ => GoPanic "assignment to entry in nil map"
          end
      end
  end.

(** [func (l *Logger) WithAdditionalFields(fields)] *)
Definition WithAdditionalFields (l : Logger) (fields : Fields) : GoResult Logger :=
  let merged := maps_Clone fields in
  match maps_Copy merged (l_fields l) with
  | GoOk merged => GoOk (WithFields l merged)
  | GoErr e => GoErr e
  | GoPanic m => GoPanic m
  end.

(** [func (l *Logger) Logger()] *)
Definition Logger_Logger (l : Logger) : Logger := mkLogger (l_writer l) None.

(** * Properties *)

(** ** Lemmas on the range loops *)

Section RangeAssign.

Variable f : string -> string.
Context `{!Inj (=) (=) f}.

Lemma range_assign_lookup_image (src dst : gmap string Value) (k : string) :
  range_assign f src dst !! f k =
  match src !! k with Some v => Some v | None => dst !! f k end.
Proof.
  unfold range_assign.
  revert k.
  apply (map_fold_weak_ind
           (fun r m => forall k, r !! f k =
              match m !! k with Some v => Some v | None => dst !! f k end)).
  - intros k. rewrite lookup_empty. reflexivity.
  - intros i x m r Hi IH k.
    destruct (decide (i = k)) as [<-|Hne].
    + rewrite !lookup_insert_eq. reflexivity.
    + rewrite lookup_insert_ne by (intros Heq; apply Hne; apply (inj f); exact Heq).
      rewrite lookup_insert_ne by exact Hne.
      apply IH.
Qed.

Lemma range_assign_lookup_other (src dst : gmap string Value) (j : string) :
  (forall k, j <> f k) -> range_assign f src dst !! j = dst !! j.
Proof.
  intros Hj. unfold range_assign.
  apply (map_fold_weak_ind (fun r m => r !! j = dst !! j)).
  - reflexivity.
  - intros i x m r _ IH.
    rewrite lookup_insert_ne by (intros Heq; apply (Hj i); symmetry; exact Heq).
    exact IH.
Qed.

End RangeAssign.

Global Instance id_string_inj : Inj (=) (=) (fun k : string => k).
Proof. intros x y H. exact H. Qed.

Lemma init_fields_prefixed (procId k : string) :
  init_fields procId !! ("fields." +:+ k) = None.
Proof.
  unfold init_fields. simpl list_to_map.
  repeat (rewrite lookup_insert_ne; [|intros H; simpl in H; discriminate H]).
  apply lookup_empty.
Qed.

(** ** C4: the severity tables *)

(** C4: for the seven levels the severity keyword and code are the fixed
    table: trace and debug give "debug"/7, info "info"/6, warn "warn"/4,
    error "err"/3, fatal "alert"/1 and panic "emerg"/0. *)
Theorem severity_tables_fixed :
  severity_keyword TraceLevel = "debug" /\ severity_code TraceLevel = 7%Z /\
  severity_keyword DebugLevel = "debug" /\ severity_code DebugLevel = 7%Z /\
  severity_keyword InfoLevel = "info" /\ severity_code InfoLevel = 6%Z /\
  severity_keyword WarnLevel = "warn" /\ severity_code WarnLevel = 4%Z /\
  severity_keyword ErrorLevel = "err" /\ severity_code ErrorLevel = 3%Z /\
  severity_keyword FatalLevel = "alert" /\ severity_code FatalLevel = 1%Z /\
  severity_keyword PanicLevel = "emerg" /\ severity_code PanicLevel = 0%Z.
Proof. repeat split; vm_compute; reflexivity. Qed.

(** ** C3: the encoded field set *)

Lemma lookup_init_fields_facility (procId : string) :
  init_fields procId !! "facility_code" = Some (VInt 1).
Proof. reflexivity. Qed.

Lemma lookup_init_fields_procid (procId : string) :
  init_fields procId !! "procid" = Some (VString procId).
Proof. reflexivity. Qed.

Lemma lookup_init_fields_version (procId : string) :
  init_fields procId !! "version" = Some (VInt 1).
Proof. reflexivity. Qed.

(** C3: on a writer carrying the default field set of [NewLogWriter], the
    field set of every encoded event has [message] = [fmt.Sprint(args...)],
    [severity_code] = the table value of the level, [timestamp] = the RFC3339
    UTC rendering of the event time, one [fields.<k>] entry per structured
    key (with its value, and no other [fields.] entry), and the defaults
    [facility_code] = 1, [procid] and [version] = 1. The three recomputed
    keys are written last, so they are the values read back. *)
Theorem getFields_encoding (Format_RFC3339_UTC : Time -> string)
    (w : LogWriter) (procId : string)
    (Hdefaults : lw_fields w = init_fields procId)
    (level : Level) (args : list Value) (fields : Fields) (t : Time) :
  let m := getFields Format_RFC3339_UTC w level args fields t in
  m !! "message" = Some (VString (Sprint args)) /\
  m !! "severity_code" = Some (VInt (severity_code level)) /\
  m !! "timestamp" = Some (VString (Format_RFC3339_UTC t)) /\
  (forall k, m !! ("fields." +:+ k) =
             match fields with Some f => f !! k | None => None end) /\
  m !! "facility_code" = Some (VInt 1) /\
  m !! "procid" = Some (VString procId) /\
  m !! "version" = Some (VInt 1).
Proof.
  intros m. subst m. unfold getFields. rewrite Hdefaults.
  set (m0 := match fields with
             | Some f => range_assign (String.append "fields.") f ∅
             | None => ∅
             end).
  repeat split.
  - apply lookup_insert_eq.
  - rewrite lookup_insert_ne by discriminate.
    rewrite lookup_insert_ne by discriminate.
    apply lookup_insert_eq.
  - rewrite lookup_insert_ne by discriminate.
    apply lookup_insert_eq.
  - intros k.
    rewrite lookup_insert_ne by (intros H; simpl in H; discriminate H).
    rewrite lookup_insert_ne by (intros H; simpl in H; discriminate H).
    rewrite lookup_insert_ne by (intros H; simpl in H; discriminate H).
    rewrite (range_assign_lookup_image (fun k => k)).
    rewrite init_fields_prefixed.
    subst m0. destruct fields as [f|].
    + rewrite (range_assign_lookup_image (String.append "fields.")).
      rewrite lookup_empty. destruct (f !! k); reflexivity.
    + apply lookup_empty.
  - rewrite !lookup_insert_ne by discriminate.
    rewrite (range_assign_lookup_image (fun k => k) _ _ "facility_code").
    rewrite lookup_init_fields_facility. reflexivity.
  - rewrite !lookup_insert_ne by discriminate.
    rewrite (range_assign_lookup_image (fun k => k) _ _ "procid").
    rewrite lookup_init_fields_procid. reflexivity.
  - rewrite !lookup_insert_ne by discriminate.
    rewrite (range_assign_lookup_image (fun k => k) _ _ "version").
    rewrite lookup_init_fields_version. reflexivity.
Qed.

(** ** The drain loop of [flushBuffer]

    The loop compares the index with the current length, which shrinks by
    one at each pop: starting from [m] pending points at index [i], it runs
    [k] times where [2k] is [m - i] rounded up to even. *)

Lemma flush_loop_spec (fuel i k : nat) (r : list Point) (c : nat) (points : Batch) :
  (length r - i <= 2 * k <= length r - i + 1)%nat ->
  (k <= fuel)%nat -> (i + k <= length points)%nat ->
  flush_loop fuel i (mkRQ r c) points =
    (mkRQ (drop k r) c, (take i points ++ map Some (take k r) ++ drop (i + k) points)%list).
Proof.
  revert i k r points.
  induction fuel as [|fuel IH]; intros i k r points Hk Hfuel Hlen; simpl.
  - assert (k = 0%nat) as Hk0 by lia. subst k.
    rewrite Nat.add_0_r. simpl. rewrite take_drop. reflexivity.
  - unfold rq_Len. simpl.
    destruct (Nat.ltb_spec i (length r)) as [Hlt|Hge].
    + destruct r as [|p r']; [simpl in Hlt; lia|].
      unfold rq_Pop. simpl. simpl in Hk, Hlt.
      destruct k as [|k']; [lia|].
      rewrite (IH (S i) k').
      * simpl.
        rewrite (take_S_r (<[i:=Some p]> points) i (Some p)).
        2: { apply list_lookup_insert_eq. lia. }
        rewrite take_insert_ge by lia.
        rewrite drop_insert_lt by lia.
        rewrite <- app_assoc. simpl.
        do 4 f_equal. f_equal. lia.
      * lia.
      * lia.
      * rewrite length_insert. lia.
    + assert (k = 0%nat) as Hk0 by lia. subst k.
      rewrite Nat.add_0_r. simpl. rewrite take_drop. reflexivity.
Qed.

Lemma half_up_bounds (n : nat) : (n <= 2 * ((n + 1) / 2) <= n + 1)%nat.
Proof.
  pose proof (Nat.div_mod_eq (n + 1) 2) as Hd.
  pose proof (Nat.mod_upper_bound (n + 1) 2 ltac:(lia)) as Hm.
  lia.
Qed.

(** [flushBuffer] pops only the older half (rounded up) of the pending
    points; the rest of the slice it sends stays nil. *)
Lemma drain_spec (r : list Point) (c : nat) :
  let k := ((length r + 1) / 2)%nat in
  drain (mkRQ r c) =
    (mkRQ (drop k r) c, (map Some (take k r) ++ replicate (length r - k) None)%list).
Proof.
  intros k. unfold drain, rq_Len. simpl.
  pose proof (half_up_bounds (length r)) as Hb.
  rewrite (flush_loop_spec (length r) 0 k); simpl.
  - rewrite drop_replicate. reflexivity.
  - subst k. lia.
  - subst k. lia.
  - rewrite length_replicate. subst k. lia.
Qed.

(** ** C1: four buffered writes into a buffer of capacity 3 *)

Lemma encode_set_buffer (fmt : Time -> string) (w : LogWriter) (b : option RingQueue)
    (level : Level) (args : list Value) (fields : Fields) (now : Time) :
  encode fmt (set_buffer w b) level args fields now = encode fmt w level args fields now.
Proof. destruct w; reflexivity. Qed.

Lemma buffer_set_buffer (w : LogWriter) (b : option RingQueue) :
  buffer (set_buffer w b) = b.
Proof. destruct w; reflexivity. Qed.

Lemma flushInterval_set_buffer (w : LogWriter) (b : option RingQueue) :
  flushInterval (set_buffer w b) = flushInterval w.
Proof. destruct w; reflexivity. Qed.

Lemma measurement_set_buffer (w : LogWriter) (b : option RingQueue) :
  measurement (set_buffer w b) = measurement w.
Proof. destruct w; reflexivity. Qed.

Lemma set_buffer_twice (w : LogWriter) (b b' : option RingQueue) :
  set_buffer (set_buffer w b) b' = set_buffer w b'.
Proof. destruct w; reflexivity. Qed.

Create Rewrite HintDb lw.
Global Hint Rewrite encode_set_buffer buffer_set_buffer flushInterval_set_buffer
  measurement_set_buffer set_buffer_twice : lw.

Definition encode_call (fmt : Time -> string) (w : LogWriter)
    (c : Level * list Value * Fields * Time) : Point :=
  let '(level, args, fields, now) := c in encode fmt w level args fields now.

(** C1 (as the code runs): with buffering on and capacity 3, four sequential
    writes hand the sink
    one batch holding the two oldest points and a nil pointer; the third
    point stays in the buffer, followed by the fourth when the sink accepted
    the batch. *)
Theorem four_writes_cap3 (fmt : Time -> string) (sink : Batch -> option Err)
    (w : LogWriter) (Hint : flushInterval w <> 0%Z)
    (Hbuf : buffer w = Some (mkRQ [] 3))
    (c1 c2 c3 c4 : Level * list Value * Fields * Time) :
  let p1 := encode_call fmt w c1 in let p2 := encode_call fmt w c2 in
  let p3 := encode_call fmt w c3 in let p4 := encode_call fmt w c4 in
  let s := snd (run_writes fmt sink [c1; c2; c3; c4] (mkWorld w [])) in
  sent s = [[Some p1; Some p2; None]] /\
  buffer (wr s) =
    Some (mkRQ (match sink [Some p1; Some p2; None] with
                | Some _ => [p3]
                | None => [p3; p4]
                end) 3).
Proof.
  destruct c1 as [[[l1 a1] f1] t1], c2 as [[[l2 a2] f2] t2],
           c3 as [[[l3 a3] f3] t3], c4 as [[[l4 a4] f4] t4].
  unfold encode_call.
  unfold run_writes, bindM, retM, Write, writeBuffered, flushBuffer,
    pushPoint, writePoints, set_buf.
  apply Z.eqb_neq in Hint.
  cbn -[encode drain set_buffer]. rewrite Hbuf, Hint.
  cbn -[encode drain set_buffer]. autorewrite with lw. rewrite Hint.
  cbn -[encode drain set_buffer]. autorewrite with lw. rewrite Hint.
  cbn -[encode drain set_buffer]. autorewrite with lw. rewrite Hint.
  cbn -[encode set_buffer]. autorewrite with lw.
  destruct (sink _); cbn -[encode set_buffer]; autorewrite with lw; split; reflexivity.
Qed.

(** A concrete run: the RFC3339 rendering and the sink are fixed, the sink
    accepts every batch, the writer buffers with capacity 3. *)
Definition cex_fmt (t : Time) : string := "1970-01-01T00:00:00Z".
Definition cex_sink (b : Batch) : option Err := None.
Definition cex_writer : LogWriter :=
  mkLogWriter "https://localhost:8181?token=t" "" "" "" None (init_fields "1")
    1%Z (Some (mkRQ [] 3)).
Definition cex_calls : list (Level * list Value * Fields * Time) :=
  map (fun t => (InfoLevel, [VString "hello"], None, t)) [1; 2; 3; 4]%Z.

(** C1 fails on the concrete run: the sink does not receive exactly the
    three oldest points, and the buffer does not hold only the fourth. *)
Lemma four_writes_cap3_counterexample :
  let s := snd (run_writes cex_fmt cex_sink cex_calls (mkWorld cex_writer [])) in
  let pts := map (encode_call cex_fmt cex_writer) cex_calls in
  ~ (sent s = [map Some (take 3 pts)] /\
     option_map rq_items (buffer (wr s)) = Some (drop 3 pts)).
Proof.
  intros s pts [Hsent _].
  vm_compute in Hsent. discriminate Hsent.
Qed.

(** ** C5: the unbuffered path *)

(** C5: with buffering off (flush interval 0 or no ring buffer) a [Write]
    hands the sink exactly one batch, made of the one new point, returns the
    sink's answer as it is, and leaves the writer (and its buffer) as it
    was. *)
Theorem Write_unbuffered (fmt : Time -> string) (sink : Batch -> option Err)
    (level : Level) (args : list Value) (fields : Fields) (now : Time) (s : World)
    (Hoff : flushInterval (wr s) = 0%Z \/ buffer (wr s) = None) :
  let point := encode fmt (wr s) level args fields now in
  Write fmt sink level args fields now s =
    (sink [Some point], mkWorld (wr s) (sent s ++ [[Some point]])%list).
Proof.
  intros point. unfold Write, writePoints. fold point.
  destruct (buffer (wr s)) as [q|] eqn:Hb; [|reflexivity].
  destruct Hoff as [Hz|Hn]; [|discriminate Hn].
  rewrite Hz. reflexivity.
Qed.

(** ** C6: a failed forced drain does not push *)

Lemma writeBuffered_eq (fmt : Time -> string) (sink : Batch -> option Err)
    (q : RingQueue) (point : Point) (s : World) :
  writeBuffered sink q point s =
    if (rq_Len q =? rq_Cap q)%nat then
      let '(q', batch) := drain q in
      match sink batch with
      | Some e => (Some e, mkWorld (set_buffer (wr s) (Some q')) (sent s ++ [batch])%list)
      | None =>
          let '(q'', err) := rq_Push q' point in
          (err, mkWorld (set_buffer (wr s) (Some q'')) (sent s ++ [batch])%list)
      end
    else
      let '(q'', err) := rq_Push q point in
      (err, mkWorld (set_buffer (wr s) (Some q'')) (sent s)).
Proof.
  unfold writeBuffered, flushBuffer, pushPoint, writePoints, set_buf, bindM, retM.
  destruct (rq_Len q =? rq_Cap q)%nat.
  - destruct (drain q) as [q' batch]. simpl.
    destruct (sink batch); simpl.
    + reflexivity.
    + destruct (rq_Push q' point). simpl. rewrite set_buffer_twice. reflexivity.
  - destruct (rq_Push q point). reflexivity.
Qed.

(** C6: on the buffered path, when the buffer is full the drain's batch
    goes to the sink; if the sink fails, its error is returned and the new
    point is not pushed (the buffer is left as the drain left it); the point
    is pushed when the drain succeeded, and when no drain was needed. *)
Theorem Write_drain_error_no_push (fmt : Time -> string) (sink : Batch -> option Err)
    (level : Level) (args : list Value) (fields : Fields) (now : Time)
    (s : World) (q : RingQueue)
    (Hon : flushInterval (wr s) <> 0%Z) (Hbuf : buffer (wr s) = Some q)
    (Hinv : (rq_Len q <= rq_Cap q)%nat) (Hcap : (0 < rq_Cap q)%nat) :
  let point := encode fmt (wr s) level args fields now in
  let '(r, s') := Write fmt sink level args fields now s in
  if (rq_Len q =? rq_Cap q)%nat then
    let '(q', batch) := drain q in
    sent s' = (sent s ++ [batch])%list /\
    match sink batch with
    | Some e => r = Some e /\ buffer (wr s') = Some q'
    | None => r = None /\ buffer (wr s') = Some (mkRQ (rq_items q' ++ [point]) (rq_cap q'))
    end
  else
    r = None /\ sent s' = sent s /\
    buffer (wr s') = Some (mkRQ (rq_items q ++ [point]) (rq_cap q)).
Proof.
  intros point.
  assert (HW : Write fmt sink level args fields now s = writeBuffered sink q point s).
  { unfold Write. rewrite Hbuf. apply Z.eqb_neq in Hon. rewrite Hon. reflexivity. }
  rewrite HW, (writeBuffered_eq fmt).
  destruct q as [items c]. unfold rq_Len, rq_Cap in *. simpl in *.
  destruct (Nat.eqb_spec (length items) c) as [Hfull|Hnot].
  - rewrite drain_spec.
    set (k := ((length items + 1) / 2)%nat).
    pose proof (half_up_bounds (length items)) as Hb.
    destruct (sink _) as [e|]; simpl.
    + auto.
    + unfold rq_Push, rq_Len, rq_Cap. simpl.
      rewrite length_drop.
      destruct (Nat.ltb_spec (length items - k) c) as [_|Hge]; [|subst k; lia].
      simpl. auto.
  - unfold rq_Push, rq_Len, rq_Cap. simpl.
    destruct (Nat.ltb_spec (length items) c) as [_|Hge]; [|lia].
    simpl. auto.
Qed.

(** ** C8: the control-flow effects of [Log] *)

(** C8: [Log] always performs the [Write] and returns no error; after it,
    a fatal call exits with code 1 and a panic call panics with
    [fmt.Sprint(args...)], whatever the write returned; the other levels
    return normally. *)
Theorem Log_outcome (fmt : Time -> string) (sink : Batch -> option Err)
    (l : Logger) (level : Level) (args : list Value) (now : Time) (s : World) :
  let '(o, s') := Log fmt sink l level args now s in
  s' = snd (Write fmt sink level args (l_fields l) now s) /\
  (level = FatalLevel -> o = Exited 1) /\
  (level = PanicLevel -> o = Panicked (Sprint args)) /\
  (level <> FatalLevel -> level <> PanicLevel -> o = Returned).
Proof.
  unfold Log, bindM, retM.
  destruct (Write fmt sink level args (l_fields l) now s) as [r s'].
  destruct level; simpl; repeat split; intros; try congruence.
Qed.

(** ** C2: construction *)

(** C2: whenever the connection string parses and the flush interval is
    not negative, [NewLogWriter] (and so [NewBufferedLogger]) panics on the
    first assignment into the nil map [writer.tags], whatever the buffer
    limit: it never returns a writer. *)
Theorem NewLogWriter_panics (NewFromConnectionString : string -> string + Err)
    (connection appName' host' procId : string) (flushInterval' bufferLimit : Z)
    (addr : nat) (c : string)
    (Hconn : NewFromConnectionString connection = inl c)
    (Hfi : (0 <= flushInterval')%Z) :
  NewLogWriter NewFromConnectionString connection appName' host' procId
    flushInterval' bufferLimit = GoPanic "assignment to entry in nil map" /\
  NewBufferedLogger NewFromConnectionString addr connection appName' host' procId
    flushInterval' bufferLimit = GoPanic "assignment to entry in nil map".
Proof.
  assert (H : NewLogWriter NewFromConnectionString connection appName' host' procId
                flushInterval' bufferLimit = GoPanic "assignment to entry in nil map").
  { unfold NewLogWriter. rewrite Hconn.
    destruct (Z.ltb_spec flushInterval' 0) as [Hlt|_]; [lia|].
    unfold rq_NewUnsafe.
    destruct (Z.ltb_spec 0 bufferLimit); vm_compute; reflexivity. }
  split; [exact H|].
  unfold NewBufferedLogger. rewrite H. reflexivity.
Qed.

(** ** C7: merging attached fields *)

(** X7: for a non-nil argument, [WithAdditionalFields] keeps the writer and
    attaches the union of the argument and the current fields, the current
    fields winning on a shared key. *)
Lemma WithAdditionalFields_non_nil (l : Logger) (fa : gmap string Value) :
  exists merged,
    WithAdditionalFields l (Some fa) = GoOk (mkLogger (l_writer l) (Some merged)) /\
    forall k, merged !! k =
      match (match l_fields l with Some lf => lf !! k | None => None end) with
      | Some v => Some v
      | None => fa !! k
      end.
Proof.
  unfold WithAdditionalFields, maps_Clone, maps_Copy, WithFields.
  destruct (l_fields l) as [lf|].
  - eexists. split; [reflexivity|].
    intros k. apply (range_assign_lookup_image (fun k => k)).
  - eexists. split; [reflexivity|]. intros k. reflexivity.
Qed.

(** C7 at a nil argument: [maps.Clone(nil)] is nil, and [maps.Copy] into it
    panics as soon as the logger carries a field. *)
Theorem WithAdditionalFields_nil_panics :
  WithAdditionalFields (mkLogger 0 (Some {[ "a" := VInt 2 ]})) None =
    GoPanic "assignment to entry in nil map".
Proof. vm_compute. reflexivity. Qed.

(** ** C10: the measurement name *)

(** Every point the writer holds or has handed to the sink, and the writer
    itself, carry the empty measurement name. *)
Definition measurement_empty (s : World) : Prop :=
  measurement (wr s) = "" /\
  (forall q, buffer (wr s) = Some q ->
     Forall (fun p => p_measurement p = "") (rq_items q)) /\
  Forall (fun b => Forall (fun op => forall p, op = Some p -> p_measurement p = "") b)
    (sent s).

Lemma Write_measurement_empty (fmt : Time -> string) (sink : Batch -> option Err)
    (level : Level) (args : list Value) (fields : Fields) (now : Time) (s : World) :
  measurement_empty s ->
  measurement_empty (snd (Write fmt sink level args fields now s)).
Proof.
  intros (Hm & Hq & Hs).
  assert (Hp : p_measurement (encode fmt (wr s) level args fields now) = "")
    by exact Hm.
  assert (Hsync : measurement_empty
                    (snd (writePoints sink [Some (encode fmt (wr s) level args fields now)] s))).
  { unfold writePoints. simpl. split; [exact Hm|]. split; [exact Hq|].
    apply Forall_app. split; [exact Hs|].
    repeat constructor. intros p Hp'. injection Hp' as <-. exact Hp. }
  unfold Write.
  destruct (buffer (wr s)) as [q|] eqn:Hb; [|exact Hsync].
  destruct (flushInterval (wr s) =? 0)%Z; [exact Hsync|].
  rewrite (writeBuffered_eq fmt).
  pose proof (Hq q eq_refl) as Hitems.
  destruct q as [items c]. simpl in Hitems.
  destruct (rq_Len _ =? rq_Cap _)%nat.
  - rewrite drain_spec.
    set (k := ((length items + 1) / 2)%nat).
    assert (Hbatch : Forall (fun op => forall p, op = Some p -> p_measurement p = "")
                       (map Some (take k items) ++ replicate (length items - k) None)%list).
    { apply Forall_app. split.
      - apply Forall_map. apply Forall_take.
        eapply Forall_impl; [exact Hitems|]. intros p Hp1 p' Heq.
        injection Heq as <-. exact Hp1.
      - apply Forall_replicate. intros p Heq. discriminate Heq. }
    destruct (sink _).
    + simpl. autorewrite with lw. split; [exact Hm|]. split.
      * intros q' Hq'. injection Hq' as <-. simpl. apply Forall_drop. exact Hitems.
      * apply Forall_app. split; [exact Hs|]. repeat constructor. exact Hbatch.
    + unfold rq_Push. simpl.
      destruct (_ <? _)%nat; simpl; autorewrite with lw;
        (split; [exact Hm|]; split).
      * intros q' Hq'. injection Hq' as <-. simpl.
        apply Forall_app. split; [apply Forall_drop; exact Hitems|].
        repeat constructor. exact Hp.
      * apply Forall_app. split; [exact Hs|]. repeat constructor. exact Hbatch.
      * intros q' Hq'. injection Hq' as <-. simpl. apply Forall_drop. exact Hitems.
      * apply Forall_app. split; [exact Hs|]. repeat constructor. exact Hbatch.
  - unfold rq_Push. simpl.
    destruct (_ <? _)%nat; simpl; autorewrite with lw;
      (split; [exact Hm|]; split; [|exact Hs]).
    + intros q' Hq'. injection Hq' as <-. simpl.
      apply Forall_app. split; [exact Hitems|]. repeat constructor. exact Hp.
    + intros q' Hq'. injection Hq' as <-. exact Hitems.
Qed.

(** C10: starting from a writer whose measurement is the empty string (the
    value every [LogWriter] has, since no code assigns the field) with no
    pending and no sent point, every point of any sequence of [Write] calls
    that reaches the buffer or the sink has measurement "". *)
Theorem run_writes_measurement_empty (fmt : Time -> string) (sink : Batch -> option Err)
    (calls : list (Level * list Value * Fields * Time)) (s : World)
    (Hm : measurement (wr s) = "")
    (Hbuf : forall q, buffer (wr s) = Some q -> rq_items q = [])
    (Hsent : sent s = []) :
  let s' := snd (run_writes fmt sink calls s) in
  measurement (wr s') = "" /\
  (forall q, buffer (wr s') = Some q ->
     forall p, p ∈ rq_items q -> p_measurement p = "") /\
  (forall b, b ∈ sent s' -> forall p, Some p ∈ b -> p_measurement p = "").
Proof.
  assert (Hinit : measurement_empty s).
  { split; [exact Hm|]. split.
    - intros q Hq. rewrite (Hbuf q Hq). constructor.
    - rewrite Hsent. constructor. }
  assert (Hrun : measurement_empty (snd (run_writes fmt sink calls s))).
  { clear Hm Hbuf Hsent. revert s Hinit.
    induction calls as [|[[[level args] fields] now] rest IH]; intros s Hinit.
    - exact Hinit.
    - simpl. unfold bindM, retM.
      pose proof (Write_measurement_empty fmt sink level args fields now s Hinit) as H1.
      destruct (Write fmt sink level args fields now s) as [r s1].
      specialize (IH s1 H1).
      destruct (run_writes fmt sink rest s1) as [rs s2]. exact IH. }
  destruct Hrun as (Hm' & Hq' & Hs').
  split; [exact Hm'|]. split.
  - intros q Hq p Hp. specialize (Hq' q Hq).
    rewrite Forall_forall in Hq'. apply Hq'. exact Hp.
  - intros b Hb p Hp. rewrite Forall_forall in Hs'.
    specialize (Hs' b Hb). rewrite Forall_forall in Hs'.
    exact (Hs' (Some p) Hp p eq_refl).
Qed.

(** ** C9: concurrent buffered writers

    Goroutines calling [writeBuffered] on one writer, interleaved one atomic
    step at a time. [w.flushMutex.Lock()] is taken by one goroutine when it
    is free; the deferred [Unlock] runs on both returns. Between them a
    goroutine checks the capacity, drains and calls the sink (the call is in
    flight until it returns), and pushes. *)
Module Concurrent.

Inductive Pc :=
| Idle (p : Point)                  (** before [Lock] *)
| Checking (p : Point)              (** holds the lock, capacity check next *)
| Flushing (p : Point) (b : Batch)  (** holds the lock, sink call for [b] in flight *)
| Pushing (p : Point)               (** holds the lock, [Push] next *)
| Done (r : option Err).            (** returned, lock released *)

Definition in_cs (pc : Pc) : bool :=
  match pc with
  | Checking _ | Flushing _ _ | Pushing _ => true
  | Idle _ | Done _ => false
  end.

Record State := mkState {
  threads : list Pc;            (** indexed by goroutine *)
  lock : option nat;            (** the goroutine holding [flushMutex] *)
  queue : RingQueue;            (** [w.buffer] *)
  batches : list Batch          (** batches handed to the sink, oldest first *)
}.

Inductive step : nat -> State -> State -> Prop :=
| step_lock t p s :
    threads s !! t = Some (Idle p) -> lock s = None ->
    step t s (mkState (<[t := Checking p]> (threads s)) (Some t) (queue s) (batches s))
| step_check_full t p s :
    threads s !! t = Some (Checking p) -> rq_Len (queue s) = rq_Cap (queue s) ->
    step t s (mkState (<[t := Flushing p (snd (drain (queue s)))]> (threads s)) (lock s)
                (fst (drain (queue s))) (batches s ++ [snd (drain (queue s))])%list)
| step_check_room t p s :
    threads s !! t = Some (Checking p) -> rq_Len (queue s) <> rq_Cap (queue s) ->
    step t s (mkState (<[t := Pushing p]> (threads s)) (lock s) (queue s) (batches s))
| step_sink_ok t p b s :
    threads s !! t = Some (Flushing p b) ->
    step t s (mkState (<[t := Pushing p]> (threads s)) (lock s) (queue s) (batches s))
| step_sink_err t p b e s :
    threads s !! t = Some (Flushing p b) ->
    step t s (mkState (<[t := Done (Some e)]> (threads s)) None (queue s) (batches s))
| step_push t p s :
    threads s !! t = Some (Pushing p) ->
    step t s (mkState (<[t := Done (snd (rq_Push (queue s) p))]> (threads s)) None
                (fst (rq_Push (queue s) p)) (batches s)).

Definition any_step (s s' : State) : Prop := exists t, step t s s'.

Definition init (points : list Point) (q : RingQueue) : State :=
  mkState (map Idle points) None q [].

Definition reachable (points : list Point) (q : RingQueue) (s : State) : Prop :=
  rtc any_step (init points q) s.

(** The lock is held exactly by the goroutine inside the critical section. *)
Definition lock_inv (s : State) : Prop :=
  forall t, lock s = Some t <-> exists pc, threads s !! t = Some pc /\ in_cs pc = true.

Lemma lock_inv_init (points : list Point) (q : RingQueue) : lock_inv (init points q).
Proof.
  intros t. simpl. split; [discriminate|].
  intros (pc & Hpc & Hcs).
  rewrite list_lookup_fmap in Hpc.
  destruct (points !! t); simpl in Hpc; [|discriminate].
  injection Hpc as <-. discriminate Hcs.
Qed.

Ltac lookup_cases t u :=
  destruct (decide (t = u)) as [<-|?];
  [rewrite list_lookup_insert_eq by (eapply lookup_lt_Some; eassumption)
  |rewrite list_lookup_insert_ne by congruence].

Lemma lock_inv_step (t : nat) (s s' : State) :
  lock_inv s -> step t s s' -> lock_inv s'.
Proof.
  intros Hinv Hstep u.
  destruct Hstep as [t p s Ht Hl|t p s Ht _|t p s Ht _|t p b s Ht|t p b e s Ht|t p s Ht];
    simpl; lookup_cases t u.
  - split; [intros _; eexists; split; reflexivity|reflexivity].
  - split; [intros H; congruence|].
    intros H. apply Hinv in H. rewrite Hl in H. discriminate H.
  - rewrite (proj2 (Hinv t) (ex_intro _ _ (conj Ht eq_refl))).
    split; [intros _; eexists; split; reflexivity|reflexivity].
  - exact (Hinv u).
  - rewrite (proj2 (Hinv t) (ex_intro _ _ (conj Ht eq_refl))).
    split; [intros _; eexists; split; reflexivity|reflexivity].
  - exact (Hinv u).
  - rewrite (proj2 (Hinv t) (ex_intro _ _ (conj Ht eq_refl))).
    split; [intros _; eexists; split; reflexivity|reflexivity].
  - exact (Hinv u).
  - split; [discriminate|]. intros (pc & Hpc & Hcs). injection Hpc as <-. discriminate Hcs.
  - split; [discriminate|]. intros Hcs.
    apply Hinv in Hcs. rewrite (proj2 (Hinv t) (ex_intro _ _ (conj Ht eq_refl))) in Hcs.
    congruence.
  - split; [discriminate|]. intros (pc & Hpc & Hcs). injection Hpc as <-. discriminate Hcs.
  - split; [discriminate|]. intros Hcs.
    apply Hinv in Hcs. rewrite (proj2 (Hinv t) (ex_intro _ _ (conj Ht eq_refl))) in Hcs.
    congruence.
Qed.

Lemma lock_inv_reachable (points : list Point) (q : RingQueue) (s : State) :
  reachable points q s -> lock_inv s.
Proof.
  unfold reachable. revert s.
  apply (rtc_ind_r lock_inv).
  - apply lock_inv_init.
  - intros s1 s2 _ [t Hst] IH. exact (lock_inv_step t s1 s2 IH Hst).
Qed.

Lemma step_in_cs_or_lock (u : nat) (s s' : State) :
  step u s s' ->
  lock s = None \/ exists pc, threads s !! u = Some pc /\ in_cs pc = true.
Proof.
  intros Hst.
  destruct Hst as [t p s Ht Hl|t p s Ht _|t p s Ht _|t p b s Ht|t p b e s Ht|t p s Ht];
    [left; exact Hl|right; eexists; split; [exact Ht|reflexivity]..].
Qed.

(** C9: in every reachable interleaving of buffered writers, at most one
    goroutine is between [Lock] and [Unlock] (so at most one sink call of a
    drain is in flight), and while a goroutine holds the lock no other
    goroutine takes a step: the capacity check, the drain, the sink call and
    the push of one [writeBuffered] run without interference. *)
Theorem buffered_writes_serialized (points : list Point) (q : RingQueue) (s : State)
    (Hr : reachable points q s) :
  (forall t1 t2 pc1 pc2,
     threads s !! t1 = Some pc1 -> threads s !! t2 = Some pc2 ->
     in_cs pc1 = true -> in_cs pc2 = true -> t1 = t2) /\
  (forall t1 t2 p1 b1 p2 b2,
     threads s !! t1 = Some (Flushing p1 b1) ->
     threads s !! t2 = Some (Flushing p2 b2) -> t1 = t2) /\
  (forall t u s', lock s = Some t -> step u s s' -> u = t).
Proof.
  pose proof (lock_inv_reachable points q s Hr) as Hinv.
  assert (Hexcl : forall t1 t2 pc1 pc2,
     threads s !! t1 = Some pc1 -> threads s !! t2 = Some pc2 ->
     in_cs pc1 = true -> in_cs pc2 = true -> t1 = t2).
  { intros t1 t2 pc1 pc2 H1 H2 C1 C2.
    pose proof (proj2 (Hinv t1) (ex_intro _ _ (conj H1 C1))) as L1.
    pose proof (proj2 (Hinv t2) (ex_intro _ _ (conj H2 C2))) as L2.
    congruence. }
  split; [exact Hexcl|]. split.
  - intros t1 t2 p1 b1 p2 b2 H1 H2. exact (Hexcl t1 t2 _ _ H1 H2 eq_refl eq_refl).
  - intros t u s' Hl Hst.
    destruct (step_in_cs_or_lock u s s' Hst) as [Hn|Hcs].
    + congruence.
    + apply Hinv in Hcs. congruence.
Qed.

End Concurrent.

(** * Witnesses: the theorems at concrete inputs *)

Definition cex_call (n : Z) : Level * list Value * Fields * Time :=
  (InfoLevel, [VString "hello"], None, n).

Lemma four_writes_cap3_witness :
  flushInterval cex_writer <> 0%Z /\ buffer cex_writer = Some (mkRQ [] 3) /\
  let p1 := encode_call cex_fmt cex_writer (cex_call 1) in
  let p2 := encode_call cex_fmt cex_writer (cex_call 2) in
  let p3 := encode_call cex_fmt cex_writer (cex_call 3) in
  let p4 := encode_call cex_fmt cex_writer (cex_call 4) in
  let s := snd (run_writes cex_fmt cex_sink
                  [cex_call 1; cex_call 2; cex_call 3; cex_call 4]
                  (mkWorld cex_writer [])) in
  sent s = [[Some p1; Some p2; None]] /\
  buffer (wr s) =
    Some (mkRQ (match cex_sink [Some p1; Some p2; None] with
                | Some _ => [p3]
                | None => [p3; p4]
                end) 3).
Proof.
  assert (H1 : flushInterval cex_writer <> 0%Z) by discriminate.
  assert (H2 : buffer cex_writer = Some (mkRQ [] 3)) by reflexivity.
  split; [exact H1|]. split; [exact H2|].
  exact (four_writes_cap3 cex_fmt cex_sink cex_writer H1 H2
           (cex_call 1) (cex_call 2) (cex_call 3) (cex_call 4)).
Defined.

Lemma NewLogWriter_panics_witness :
  (fun c : string => @inl string Err c) "https://localhost:8181?token=t" =
    inl "https://localhost:8181?token=t" /\
  (0 <= 0)%Z /\
  NewLogWriter (fun c => inl c) "https://localhost:8181?token=t" "app" "host" "1"
    0 0 = GoPanic "assignment to entry in nil map" /\
  NewBufferedLogger (fun c => inl c) 0 "https://localhost:8181?token=t" "app" "host" "1"
    0 0 = GoPanic "assignment to entry in nil map".
Proof.
  split; [reflexivity|]. split; [lia|].
  apply (NewLogWriter_panics (fun c => inl c) "https://localhost:8181?token=t"
           "app" "host" "1" 0 0 0 "https://localhost:8181?token=t"); [reflexivity|lia].
Defined.

Definition sample_writer : LogWriter :=
  mkLogWriter "https://localhost:8181?token=t" "" "" "" None (init_fields "1")
    0%Z None.

Lemma getFields_encoding_witness :
  lw_fields sample_writer = init_fields "1" /\
  let m := getFields cex_fmt sample_writer WarnLevel [VString "disk "; VInt 90]
             (Some {[ "k" := VInt 2 ]}) 0 in
  m !! "message" = Some (VString (Sprint [VString "disk "; VInt 90])) /\
  m !! "severity_code" = Some (VInt (severity_code WarnLevel)) /\
  m !! "timestamp" = Some (VString (cex_fmt 0)) /\
  (forall k, m !! ("fields." +:+ k) =
             ({[ "k" := VInt 2 ]} : gmap string Value) !! k) /\
  m !! "facility_code" = Some (VInt 1) /\
  m !! "procid" = Some (VString "1") /\
  m !! "version" = Some (VInt 1).
Proof.
  assert (H : lw_fields sample_writer = init_fields "1") by reflexivity.
  split; [exact H|].
  exact (getFields_encoding cex_fmt sample_writer "1" H WarnLevel
           [VString "disk "; VInt 90] (Some {[ "k" := VInt 2 ]}) 0).
Defined.

Definition sample_world : World := mkWorld sample_writer [].

Lemma Write_unbuffered_witness :
  (flushInterval (wr sample_world) = 0%Z \/ buffer (wr sample_world) = None) /\
  let point := encode cex_fmt (wr sample_world) InfoLevel [VString "hello"] None 5 in
  Write cex_fmt cex_sink InfoLevel [VString "hello"] None 5 sample_world =
    (cex_sink [Some point], mkWorld (wr sample_world) (sent sample_world ++ [[Some point]])%list).
Proof.
  assert (H : flushInterval (wr sample_world) = 0%Z \/ buffer (wr sample_world) = None)
    by (left; reflexivity).
  split; [exact H|].
  exact (Write_unbuffered cex_fmt cex_sink InfoLevel [VString "hello"] None 5
           sample_world H).
Defined.

(** A full buffer of capacity 2 and a sink that refuses every batch. *)
Definition full_world : World :=
  mkWorld (mkLogWriter "https://localhost:8181?token=t" "" "" "" None
             (init_fields "1") 1%Z
             (Some (mkRQ [encode_call cex_fmt cex_writer (cex_call 1);
                          encode_call cex_fmt cex_writer (cex_call 2)] 2)))
          [].
Definition refusing_sink (b : Batch) : option Err := Some (ErrSink "unavailable").
Definition full_queue : RingQueue :=
  mkRQ [encode_call cex_fmt cex_writer (cex_call 1);
        encode_call cex_fmt cex_writer (cex_call 2)] 2.

Lemma Write_drain_error_no_push_witness :
  flushInterval (wr full_world) <> 0%Z /\ buffer (wr full_world) = Some full_queue /\
  (rq_Len full_queue <= rq_Cap full_queue)%nat /\ (0 < rq_Cap full_queue)%nat /\
  let point := encode cex_fmt (wr full_world) InfoLevel [VString "hello"] None 3 in
  let '(r, s') := Write cex_fmt refusing_sink InfoLevel [VString "hello"] None 3 full_world in
  if (rq_Len full_queue =? rq_Cap full_queue)%nat then
    let '(q', batch) := drain full_queue in
    sent s' = (sent full_world ++ [batch])%list /\
    match refusing_sink batch with
    | Some e => r = Some e /\ buffer (wr s') = Some q'
    | None => r = None /\ buffer (wr s') = Some (mkRQ (rq_items q' ++ [point]) (rq_cap q'))
    end
  else
    r = None /\ sent s' = sent full_world /\
    buffer (wr s') = Some (mkRQ (rq_items full_queue ++ [point]) (rq_cap full_queue)).
Proof.
  assert (H1 : flushInterval (wr full_world) <> 0%Z) by discriminate.
  assert (H2 : buffer (wr full_world) = Some full_queue) by reflexivity.
  assert (H3 : (rq_Len full_queue <= rq_Cap full_queue)%nat) by (vm_compute; lia).
  assert (H4 : (0 < rq_Cap full_queue)%nat) by (vm_compute; lia).
  split; [exact H1|]. split; [exact H2|]. split; [exact H3|]. split; [exact H4|].
  exact (Write_drain_error_no_push cex_fmt refusing_sink InfoLevel [VString "hello"]
           None 3 full_world full_queue H1 H2 H3 H4).
Defined.

Lemma run_writes_measurement_empty_witness :
  measurement (wr (mkWorld cex_writer [])) = "" /\
  (forall q, buffer (wr (mkWorld cex_writer [])) = Some q -> rq_items q = []) /\
  sent (mkWorld cex_writer []) = [] /\
  let s' := snd (run_writes cex_fmt cex_sink cex_calls (mkWorld cex_writer [])) in
  measurement (wr s') = "" /\
  (forall q, buffer (wr s') = Some q ->
     forall p, p ∈ rq_items q -> p_measurement p = "") /\
  (forall b, b ∈ sent s' -> forall p, Some p ∈ b -> p_measurement p = "").
Proof.
  assert (H1 : measurement (wr (mkWorld cex_writer [])) = "") by reflexivity.
  assert (H2 : forall q, buffer (wr (mkWorld cex_writer [])) = Some q -> rq_items q = []).
  { intros q Hq. simpl in Hq. injection Hq as <-. reflexivity. }
  assert (H3 : sent (mkWorld cex_writer []) = []) by reflexivity.
  split; [exact H1|]. split; [exact H2|]. split; [exact H3|].
  exact (run_writes_measurement_empty cex_fmt cex_sink cex_calls
           (mkWorld cex_writer []) H1 H2 H3).
Defined.

Lemma buffered_writes_serialized_witness :
  let pts := map (encode_call cex_fmt cex_writer) cex_calls in
  let s := Concurrent.mkState
             (Concurrent.Checking (encode_call cex_fmt cex_writer (cex_call 1)) :: map Concurrent.Idle (drop 1 pts))
             (Some 0%nat) (mkRQ [] 3) [] in
  Concurrent.reachable pts (mkRQ [] 3) s /\
  (forall t1 t2 pc1 pc2,
     Concurrent.threads s !! t1 = Some pc1 -> Concurrent.threads s !! t2 = Some pc2 ->
     Concurrent.in_cs pc1 = true -> Concurrent.in_cs pc2 = true -> t1 = t2) /\
  (forall t1 t2 p1 b1 p2 b2,
     Concurrent.threads s !! t1 = Some (Concurrent.Flushing p1 b1) ->
     Concurrent.threads s !! t2 = Some (Concurrent.Flushing p2 b2) -> t1 = t2) /\
  (forall t u s', Concurrent.lock s = Some t -> Concurrent.step u s s' -> u = t).
Proof.
  intros pts s.
  assert (Hr : Concurrent.reachable pts (mkRQ [] 3) s).
  { unfold Concurrent.reachable.
    apply rtc_once. exists 0%nat.
    apply (Concurrent.step_lock 0 (encode_call cex_fmt cex_writer (cex_call 1)) (Concurrent.init pts (mkRQ [] 3)));
      reflexivity. }
  split; [exact Hr|].
  exact (Concurrent.buffered_writes_serialized pts (mkRQ [] 3) s Hr).
Defined.

(** * Further properties of the code *)

(** The points of a batch, nil slots skipped. *)
Definition batch_points (b : Batch) : list Point := omap id b.

Definition sent_points (bs : list Batch) : list Point := concat (map batch_points bs).

Lemma batch_points_drained (r : list Point) (n : nat) :
  batch_points (map Some r ++ replicate n None)%list = r.
Proof.
  unfold batch_points. rewrite omap_app.
  induction r as [|p r IH]; simpl.
  - induction n as [|n IHn]; simpl; [reflexivity|exact IHn].
  - f_equal. exact IH.
Qed.

Lemma sent_points_snoc (bs : list Batch) (b : Batch) :
  sent_points (bs ++ [b])%list = (sent_points bs ++ batch_points b)%list.
Proof.
  unfold sent_points. rewrite map_app, concat_app. simpl. rewrite app_nil_r. reflexivity.
Qed.

(** The buffered path of [Write] in closed form, on a queue within its
    capacity. *)
Lemma Write_buffered_eq (fmt : Time -> string) (sink : Batch -> option Err)
    (level : Level) (args : list Value) (fields : Fields) (now : Time)
    (s : World) (r : list Point) (c : nat)
    (Hon : flushInterval (wr s) <> 0%Z) (Hbuf : buffer (wr s) = Some (mkRQ r c))
    (Hinv : (length r <= c)%nat) (Hcap : (0 < c)%nat) :
  let p := encode fmt (wr s) level args fields now in
  let k := ((length r + 1) / 2)%nat in
  let batch := (map Some (take k r) ++ replicate (length r - k) None)%list in
  Write fmt sink level args fields now s =
    if (length r =? c)%nat then
      match sink batch with
      | Some e => (Some e, mkWorld (set_buffer (wr s) (Some (mkRQ (drop k r) c)))
                             (sent s ++ [batch])%list)
      | None => (None, mkWorld (set_buffer (wr s) (Some (mkRQ (drop k r ++ [p]) c)))
                         (sent s ++ [batch])%list)
      end
    else (None, mkWorld (set_buffer (wr s) (Some (mkRQ (r ++ [p]) c))) (sent s)).
Proof.
  intros p k batch.
  assert (HW : Write fmt sink level args fields now s = writeBuffered sink (mkRQ r c) p s).
  { unfold Write. rewrite Hbuf. apply Z.eqb_neq in Hon. rewrite Hon. reflexivity. }
  rewrite HW, (writeBuffered_eq fmt). unfold rq_Len, rq_Cap. simpl.
  pose proof (half_up_bounds (length r)) as Hb.
  destruct (Nat.eqb_spec (length r) c) as [Hfull|Hnot].
  - rewrite drain_spec. fold k batch.
    destruct (sink batch); [reflexivity|].
    unfold rq_Push, rq_Len, rq_Cap. simpl. rewrite length_drop.
    destruct (Nat.ltb_spec (length r - k) c) as [_|Hge]; [reflexivity|subst k; lia].
  - unfold rq_Push, rq_Len, rq_Cap. simpl.
    destruct (Nat.ltb_spec (length r) c) as [_|Hge]; [reflexivity|lia].
Qed.

(** X1: [flushBuffer] on [n] pending points pops the older [(n + 1) / 2]
    of them, in order, into a slice of length [n] whose other slots stay nil,
    hands that slice to the sink, keeps the younger points queued, and
    returns the sink's answer. *)
Theorem flushBuffer_pops_older_half (sink : Batch -> option Err)
    (r : list Point) (c : nat) (s : World) :
  let k := ((length r + 1) / 2)%nat in
  let batch := (map Some (take k r) ++ replicate (length r - k) None)%list in
  flushBuffer sink (mkRQ r c) s =
    ((mkRQ (drop k r) c, sink batch),
     mkWorld (set_buffer (wr s) (Some (mkRQ (drop k r) c))) (sent s ++ [batch])%list).
Proof.
  intros k batch.
  unfold flushBuffer, bindM, retM, set_buf, writePoints.
  rewrite drain_spec. fold k batch. reflexivity.
Qed.

Lemma encode_call_set_buffer (fmt : Time -> string) (w : LogWriter) (b : option RingQueue)
    (c : Level * list Value * Fields * Time) :
  encode_call fmt (set_buffer w b) c = encode_call fmt w c.
Proof. destruct c as [[[? ?] ?] ?]. apply encode_set_buffer. Qed.

(** One buffered [Write] on a queue within its capacity: the queue stays
    within it, the sink gets at most one batch and any error returned is the
    sink's answer to it; with a sink that accepts every batch no point is
    lost or reordered. *)
Lemma Write_buffered_step (fmt : Time -> string) (sink : Batch -> option Err)
    (level : Level) (args : list Value) (fields : Fields) (now : Time)
    (s : World) (r : list Point) (c : nat)
    (Hon : flushInterval (wr s) <> 0%Z) (Hbuf : buffer (wr s) = Some (mkRQ r c))
    (Hinv : (length r <= c)%nat) (Hcap : (0 < c)%nat) :
  let p := encode fmt (wr s) level args fields now in
  let '(res, s') := Write fmt sink level args fields now s in
  exists r',
    wr s' = set_buffer (wr s) (Some (mkRQ r' c)) /\ (length r' <= c)%nat /\
    (exists bs, sent s' = (sent s ++ bs)%list /\
       (bs = [] /\ res = None \/ exists b, bs = [b] /\ res = sink b)) /\
    ((forall b, sink b = None) -> res = None /\
       (sent_points (sent s') ++ r' = sent_points (sent s) ++ r ++ [p])%list).
Proof.
  intros p.
  rewrite (Write_buffered_eq fmt sink level args fields now s r c Hon Hbuf Hinv Hcap).
  fold p.
  set (k := ((length r + 1) / 2)%nat).
  set (batch := (map Some (take k r) ++ replicate (length r - k) None)%list).
  pose proof (half_up_bounds (length r)) as Hb.
  destruct (Nat.eqb_spec (length r) c) as [Hfull|Hnot].
  - destruct (sink batch) as [e|] eqn:Hs.
    + exists (drop k r). simpl. split; [reflexivity|]. split; [rewrite length_drop; lia|].
      split.
      * exists [batch]. split; [reflexivity|]. right. exists batch. split; [reflexivity|].
        symmetry. exact Hs.
      * intros Hall. rewrite Hall in Hs. discriminate Hs.
    + exists (drop k r ++ [p])%list. simpl. split; [reflexivity|].
      split; [rewrite length_app, length_drop; simpl; subst k; lia|].
      split.
      * exists [batch]. split; [reflexivity|]. right. exists batch. split; [reflexivity|].
        symmetry. exact Hs.
      * intros _. split; [reflexivity|].
        rewrite sent_points_snoc. unfold batch. rewrite batch_points_drained.
        rewrite <- !app_assoc. f_equal.
        rewrite app_assoc, take_drop. reflexivity.
  - exists (r ++ [p])%list. simpl. split; [reflexivity|].
    split; [rewrite length_app; simpl; lia|].
    split.
    + exists []. rewrite app_nil_r. split; [reflexivity|]. left. split; reflexivity.
    + intros _. split; [reflexivity|]. reflexivity.
Qed.

(** X2: on a buffering writer whose queue is within its capacity, with a sink
    that accepts every batch, every [Write] of a sequence returns nil, and
    the points that reached the sink (nil slots skipped) followed by the
    queued points are exactly the points present before followed by the
    newly written ones, in write order: no point is lost or reordered. *)
Theorem run_writes_accepting_conserves (fmt : Time -> string) (sink : Batch -> option Err)
    (calls : list (Level * list Value * Fields * Time)) (s : World)
    (r : list Point) (c : nat)
    (Hsink : forall b, sink b = None)
    (Hon : flushInterval (wr s) <> 0%Z) (Hbuf : buffer (wr s) = Some (mkRQ r c))
    (Hinv : (length r <= c)%nat) (Hcap : (0 < c)%nat) :
  let '(rs, s') := run_writes fmt sink calls s in
  Forall (fun res => res = None) rs /\
  exists r', buffer (wr s') = Some (mkRQ r' c) /\ (length r' <= c)%nat /\
    (sent_points (sent s') ++ r' =
       sent_points (sent s) ++ r ++ map (encode_call fmt (wr s)) calls)%list.
Proof.
  revert s r Hon Hbuf Hinv.
  induction calls as [|[[[level args] fields] now] rest IH]; intros s r Hon Hbuf Hinv.
  - simpl. split; [constructor|]. exists r. rewrite app_nil_r. auto.
  - simpl. unfold bindM, retM.
    pose proof (Write_buffered_step fmt sink level args fields now s r c Hon Hbuf Hinv Hcap)
      as Hstep.
    destruct (Write fmt sink level args fields now s) as [res s1].
    destruct Hstep as (r1 & Hw1 & Hlen1 & _ & Hacc).
    destruct (Hacc Hsink) as [Hres Hpts].
    assert (Hon1 : flushInterval (wr s1) <> 0%Z)
      by (rewrite Hw1, flushInterval_set_buffer; exact Hon).
    assert (Hbuf1 : buffer (wr s1) = Some (mkRQ r1 c))
      by (rewrite Hw1, buffer_set_buffer; reflexivity).
    specialize (IH s1 r1 Hon1 Hbuf1 Hlen1).
    destruct (run_writes fmt sink rest s1) as [rs s2].
    destruct IH as [Hrs (r2 & Hb2 & Hl2 & Hp2)].
    split; [constructor; assumption|].
    exists r2. split; [exact Hb2|]. split; [exact Hl2|].
    rewrite Hp2, app_assoc, Hpts, Hw1.
    rewrite <- !app_assoc. simpl.
    rewrite (map_ext (encode_call fmt (set_buffer (wr s) (Some (mkRQ r1 c))))
               (encode_call fmt (wr s))) by (intros cl; apply encode_call_set_buffer).
    reflexivity.
Qed.

Lemma Write_sent_grows (fmt : Time -> string) (sink : Batch -> option Err)
    (level : Level) (args : list Value) (fields : Fields) (now : Time) (s : World) :
  exists tl, sent (snd (Write fmt sink level args fields now s)) = (sent s ++ tl)%list.
Proof.
  unfold Write.
  destruct (buffer (wr s)) as [q|];
    [destruct (flushInterval (wr s) =? 0)%Z|];
    [| |]; try (eexists; reflexivity).
  rewrite (writeBuffered_eq fmt).
  destruct (rq_Len q =? rq_Cap q)%nat.
  - destruct (drain q) as [q' batch].
    destruct (sink batch); [eexists; reflexivity|].
    destruct (rq_Push q' _). eexists; reflexivity.
  - destruct (rq_Push q _). exists []. rewrite app_nil_r. reflexivity.
Qed.

Lemma run_writes_sent_grows (fmt : Time -> string) (sink : Batch -> option Err)
    (calls : list (Level * list Value * Fields * Time)) (s : World) :
  exists tl, sent (snd (run_writes fmt sink calls s)) = (sent s ++ tl)%list.
Proof.
  revert s.
  induction calls as [|[[[level args] fields] now] rest IH]; intros s.
  - exists []. rewrite app_nil_r. reflexivity.
  - simpl. unfold bindM, retM.
    destruct (Write_sent_grows fmt sink level args fields now s) as [tl1 H1].
    destruct (Write fmt sink level args fields now s) as [res s1]. simpl in H1.
    destruct (IH s1) as [tl2 H2].
    destruct (run_writes fmt sink rest s1) as [rs s2]. simpl in H2 |- *.
    exists (tl1 ++ tl2)%list. rewrite H2, H1, app_assoc. reflexivity.
Qed.

(** X3: on a buffering writer whose queue is within its capacity, over any
    sequence of [Write] calls and whatever the sink answers, the queue stays
    within its capacity, and every error a [Write] returns is the sink's
    answer to a batch it was handed: the ring buffer's own errors never
    surface. *)
Theorem run_writes_errors_from_sink (fmt : Time -> string) (sink : Batch -> option Err)
    (calls : list (Level * list Value * Fields * Time)) (s : World)
    (r : list Point) (c : nat)
    (Hon : flushInterval (wr s) <> 0%Z) (Hbuf : buffer (wr s) = Some (mkRQ r c))
    (Hinv : (length r <= c)%nat) (Hcap : (0 < c)%nat) :
  let '(rs, s') := run_writes fmt sink calls s in
  (exists r', buffer (wr s') = Some (mkRQ r' c) /\ (length r' <= c)%nat) /\
  (forall e, Some e ∈ rs -> exists b, b ∈ sent s' /\ sink b = Some e).
Proof.
  revert s r Hon Hbuf Hinv.
  induction calls as [|[[[level args] fields] now] rest IH]; intros s r Hon Hbuf Hinv.
  - simpl. split; [exists r; auto|]. intros e He. apply elem_of_nil in He. contradiction.
  - simpl. unfold bindM, retM.
    pose proof (Write_buffered_step fmt sink level args fields now s r c Hon Hbuf Hinv Hcap)
      as Hstep.
    destruct (Write fmt sink level args fields now s) as [res s1].
    destruct Hstep as (r1 & Hw1 & Hlen1 & (bs & Hsent1 & Hres) & _).
    assert (Hon1 : flushInterval (wr s1) <> 0%Z)
      by (rewrite Hw1, flushInterval_set_buffer; exact Hon).
    assert (Hbuf1 : buffer (wr s1) = Some (mkRQ r1 c))
      by (rewrite Hw1, buffer_set_buffer; reflexivity).
    specialize (IH s1 r1 Hon1 Hbuf1 Hlen1).
    pose proof (run_writes_sent_grows fmt sink rest s1) as Hgrow.
    destruct (run_writes fmt sink rest s1) as [rs s2].
    destruct IH as [Hq2 He2].
    split; [exact Hq2|].
    intros e He. apply elem_of_cons in He as [He|He]; [|exact (He2 e He)].
    destruct Hres as [[_ Hn]|(b & Hbs & Hb)]; [congruence|].
    exists b. split; [|congruence].
    destruct Hgrow as [tl Htl]. simpl in Htl. rewrite Htl, Hsent1, Hbs.
    apply elem_of_app. left. apply elem_of_app. right. apply list_elem_of_singleton. reflexivity.
Qed.

(** X4: [NewLogWriter] and [NewBufferedLogger] check the connection first:
    an unparsable connection string gives back the parser's error, whatever
    the other arguments; a parsable one with a negative flush interval gives
    the invalid-flush-interval error. *)
Theorem NewLogWriter_error_order (NewFromConnectionString : string -> string + Err)
    (connection appName' host' procId : string) (flushInterval' bufferLimit : Z)
    (addr : nat) :
  (forall e, NewFromConnectionString connection = inr e ->
     NewLogWriter NewFromConnectionString connection appName' host' procId
       flushInterval' bufferLimit = GoErr e /\
     NewBufferedLogger NewFromConnectionString addr connection appName' host' procId
       flushInterval' bufferLimit = GoErr e) /\
  (forall c, NewFromConnectionString connection = inl c -> (flushInterval' < 0)%Z ->
     NewLogWriter NewFromConnectionString connection appName' host' procId
       flushInterval' bufferLimit = GoErr ErrInvalidFlushInterval /\
     NewBufferedLogger NewFromConnectionString addr connection appName' host' procId
       flushInterval' bufferLimit = GoErr ErrInvalidFlushInterval).
Proof.
  split.
  - intros e He.
    assert (H : NewLogWriter NewFromConnectionString connection appName' host' procId
                  flushInterval' bufferLimit = GoErr e)
      by (unfold NewLogWriter; rewrite He; reflexivity).
    split; [exact H|]. unfold NewBufferedLogger. rewrite H. reflexivity.
  - intros c Hc Hneg.
    assert (H : NewLogWriter NewFromConnectionString connection appName' host' procId
                  flushInterval' bufferLimit = GoErr ErrInvalidFlushInterval).
    { unfold NewLogWriter. rewrite Hc.
      destruct (Z.ltb_spec flushInterval' 0) as [_|Hge]; [reflexivity|lia]. }
    split; [exact H|]. unfold NewBufferedLogger. rewrite H. reflexivity.
Qed.

(** X5: [NewLogger] returns the connection parser's error when the string
    does not parse, and otherwise panics on the nil [tags] map: it never
    returns a logger. *)
Theorem NewLogger_outcome (NewFromConnectionString : string -> string + Err)
    (addr : nat) (connection appName' host' procId : string) :
  match NewFromConnectionString connection with
  | inr e => NewLogger NewFromConnectionString addr connection appName' host' procId = GoErr e
  | inl _ => NewLogger NewFromConnectionString addr connection appName' host' procId =
               GoPanic "assignment to entry in nil map"
  end.
Proof.
  unfold NewLogger, NewBufferedLogger, NewLogWriter.
  destruct (NewFromConnectionString connection) as [c|e]; [|reflexivity].
  vm_compute. reflexivity.
Qed.

(** X6: [WithAdditionalFields(nil)] keeps the writer and attaches nil when
    the logger carries no field (nil or empty), and panics as soon as it
    carries one. *)
Theorem WithAdditionalFields_nil_argument (l : Logger) :
  ((l_fields l = None \/ l_fields l = Some ∅) ->
     WithAdditionalFields l None = GoOk (mkLogger (l_writer l) None)) /\
  (forall lf, l_fields l = Some lf -> lf <> ∅ ->
     WithAdditionalFields l None = GoPanic "assignment to entry in nil map").
Proof.
  unfold WithAdditionalFields, maps_Clone, maps_Copy, WithFields.
  split.
  - intros [H|H]; rewrite H; [reflexivity|].
    rewrite map_to_list_empty. reflexivity.
  - intros lf H Hne. rewrite H.
    destruct (map_to_list lf) eqn:Hl.
    + apply map_to_list_empty_iff in Hl. contradiction.
    + reflexivity.
Qed.

Lemma range_assign_empty_lookup (f : string -> string) (src : gmap string Value)
    (j : string) (v : Value) :
  range_assign f src ∅ !! j = Some v -> exists k, j = f k /\ src !! k = Some v.
Proof.
  unfold range_assign. revert j v.
  apply (map_fold_weak_ind
           (fun r m => forall j v, r !! j = Some v -> exists k, j = f k /\ m !! k = Some v)).
  - intros j v H. rewrite lookup_empty in H. discriminate H.
  - intros i x m r Hi IH j v H.
    destruct (decide (f i = j)) as [<-|Hne].
    + rewrite lookup_insert_eq in H. exists i. split; [reflexivity|].
      rewrite lookup_insert_eq. exact H.
    + rewrite lookup_insert_ne in H by exact Hne.
      destruct (IH j v H) as (k & Hk & Hm).
      exists k. split; [exact Hk|].
      rewrite lookup_insert_ne; [exact Hm|]. intros <-. congruence.
Qed.

Lemma eq_or_neq_and (a j : string) (P : Prop) :
  a = j \/ a <> j /\ P <-> a = j \/ P.
Proof.
  split; [intros [H|[_ H]]; auto|].
  intros [H|H]; [left; exact H|].
  destruct (decide (a = j)); auto.
Qed.

(** X8: the encoded field set has a key exactly when it is one of
    [severity_code], [timestamp], [message], a key of the writer's default
    field set, or ["fields." ++ k] for a structured key [k] supplied by the
    caller: [getFields] adds nothing else and drops nothing. *)
Theorem getFields_keys (fmt : Time -> string) (w : LogWriter) (level : Level)
    (args : list Value) (fields : Fields) (t : Time) (j : string) :
  is_Some (getFields fmt w level args fields t !! j) <->
  j = "severity_code" \/ j = "timestamp" \/ j = "message" \/
  is_Some (lw_fields w !! j) \/
  (exists k f, fields = Some f /\ j = "fields." +:+ k /\ is_Some (f !! k)).
Proof.
  unfold getFields.
  rewrite !lookup_insert_is_Some.
  set (m0 := match fields with
             | Some f => range_assign (String.append "fields.") f ∅
             | None => ∅
             end).
  pose proof (range_assign_lookup_image (fun k => k) (lw_fields w) m0 j) as Hid.
  simpl in Hid. rewrite Hid. subst m0.
  rewrite !eq_or_neq_and.
  split.
  - intros [H|[H|[H|H]]];
      [right; right; left; auto|right; left; auto|left; auto|].
    right; right; right.
    destruct (lw_fields w !! j) as [v|] eqn:Hw; [left; eexists; reflexivity|right].
    destruct fields as [f|]; [|destruct H as [v Hv]; rewrite lookup_empty in Hv; discriminate Hv].
    destruct H as [v Hv].
    destruct (range_assign_empty_lookup _ _ _ _ Hv) as (k & Hk & Hf).
    exists k, f. split; [reflexivity|]. split; [exact Hk|]. eexists; exact Hf.
  - intros [H|[H|[H|[H|H]]]].
    + subst j. right. right. left. reflexivity.
    + subst j. right. left. reflexivity.
    + subst j. left. reflexivity.
    + right. right. right. destruct H as [v Hv]. rewrite Hv. eexists; reflexivity.
    + destruct H as (k & f & -> & -> & [v Hv]).
      right. right. right.
      destruct (lw_fields w !! ("fields." +:+ k)); [eexists; reflexivity|].
      rewrite (range_assign_lookup_image (String.append "fields.")).
      rewrite Hv. eexists; reflexivity.
Qed.

(** ** Witnesses of the extra properties *)

Lemma run_writes_accepting_conserves_witness :
  (forall b, cex_sink b = None) /\
  flushInterval (wr (mkWorld cex_writer [])) <> 0%Z /\
  buffer (wr (mkWorld cex_writer [])) = Some (mkRQ [] 3) /\
  (length (@nil Point) <= 3)%nat /\ (0 < 3)%nat /\
  let '(rs, s') := run_writes cex_fmt cex_sink cex_calls (mkWorld cex_writer []) in
  Forall (fun res => res = None) rs /\
  exists r', buffer (wr s') = Some (mkRQ r' 3) /\ (length r' <= 3)%nat /\
    (sent_points (sent s') ++ r' =
       sent_points (sent (mkWorld cex_writer [])) ++ [] ++
       map (encode_call cex_fmt (wr (mkWorld cex_writer []))) cex_calls)%list.
Proof.
  assert (Hs : forall b, cex_sink b = None) by reflexivity.
  assert (Hon : flushInterval (wr (mkWorld cex_writer [])) <> 0%Z) by discriminate.
  assert (Hb : buffer (wr (mkWorld cex_writer [])) = Some (mkRQ [] 3)) by reflexivity.
  assert (Hi : (length (@nil Point) <= 3)%nat) by (simpl; lia).
  assert (Hc : (0 < 3)%nat) by lia.
  split; [exact Hs|]. split; [exact Hon|]. split; [exact Hb|].
  split; [exact Hi|]. split; [exact Hc|].
  exact (run_writes_accepting_conserves cex_fmt cex_sink cex_calls
           (mkWorld cex_writer []) [] 3 Hs Hon Hb Hi Hc).
Defined.

Lemma run_writes_errors_from_sink_witness :
  flushInterval (wr (mkWorld cex_writer [])) <> 0%Z /\
  buffer (wr (mkWorld cex_writer [])) = Some (mkRQ [] 3) /\
  (length (@nil Point) <= 3)%nat /\ (0 < 3)%nat /\
  let '(rs, s') := run_writes cex_fmt refusing_sink cex_calls (mkWorld cex_writer []) in
  (exists r', buffer (wr s') = Some (mkRQ r' 3) /\ (length r' <= 3)%nat) /\
  (forall e, Some e ∈ rs -> exists b, b ∈ sent s' /\ refusing_sink b = Some e).
Proof.
  assert (Hon : flushInterval (wr (mkWorld cex_writer [])) <> 0%Z) by discriminate.
  assert (Hb : buffer (wr (mkWorld cex_writer [])) = Some (mkRQ [] 3)) by reflexivity.
  assert (Hi : (length (@nil Point) <= 3)%nat) by (simpl; lia).
  assert (Hc : (0 < 3)%nat) by lia.
  split; [exact Hon|]. split; [exact Hb|]. split; [exact Hi|]. split; [exact Hc|].
  exact (run_writes_errors_from_sink cex_fmt refusing_sink cex_calls
           (mkWorld cex_writer []) [] 3 Hon Hb Hi Hc).
Defined.
